(** * Gravitational wave animation

    A shallow embedding of [src/gravitational_wave_animation.py]: the grid
    builder, the mass trajectory model, the wave field model (scalar and
    vectorised over a NumPy array) and the frame loop of the animation
    driver.

    Numbers.  The script computes with IEEE binary64 floats.  They are
    modelled here by the real numbers they approximate: [+], [*], [/],
    [sqrt], [sin], [cos] and [exp] are the exact operations of [R], and a
    decimal literal such as [0.6] or [1e-6] is the rational it denotes.
    Rounding, overflow and NaN are outside the model; every statement below
    is a statement about the formulas the code evaluates. *)

From Stdlib Require Import Reals Lra Lia Psatz ZArith List Bool Sorted.
From Stdlib Require Import FunctionalExtensionality.
Import ListNotations.

Open Scope R_scope.

(** ** Simulation constants (lines 12-25) *)

Definition FPS : nat := 30.
Definition DURATION : nat := 12.
Definition TOTAL_FRAMES : nat := FPS * DURATION.
Definition SPACE_EXTENT : R := 6.0.
Definition GRID_POINTS : nat := 60.
Definition WAVE_SPEED : R := 1.0.
Definition WAVE_AMPLITUDE : R := 0.6.
Definition WAVE_NUMBER : R := 2.0.
Definition GAUSSIAN_FALLOFF : R := 18.0.
Definition ORBITAL_RADIUS : R := 1.4.
Definition ORBITAL_PERIOD : R := 4.0.
Definition MASS_HEIGHT_OFFSET : R := 0.9.

(** ** Planar vectors: a NumPy array of two floats *)

Definition vec2 : Type := (R * R)%type.

Definition vadd (p q : vec2) : vec2 := (fst p + fst q, snd p + snd q).
Definition vneg (p : vec2) : vec2 := (- fst p, - snd p).
Definition vnorm (p : vec2) : R := sqrt (fst p ^ 2 + snd p ^ 2).

(** ** Mass trajectory model (lines 36-43) *)

Definition _mass_positions (time_seconds : R) : vec2 * vec2 :=
  let angular_velocity := 2.0 * PI / ORBITAL_PERIOD in
  let angle := angular_velocity * time_seconds in
  let offset := ORBITAL_RADIUS in
  let first := (offset * cos angle, offset * sin angle) in
  let second := (- offset * cos angle, - offset * sin angle) in
  (first, second).

(** ** Wave field model at one coordinate (lines 46-52) *)

Definition _wave_displacement_at (x_coord y_coord time_seconds : R) : R :=
  let radius := sqrt (x_coord ^ 2 + y_coord ^ 2) + 1e-6 in
  let phase :=
    WAVE_NUMBER * radius
    - (2.0 * PI / ORBITAL_PERIOD) * time_seconds * WAVE_SPEED in
  let polarization := (x_coord ^ 2 - y_coord ^ 2) / (SPACE_EXTENT ^ 2) in
  let envelope := exp (- radius ^ 2 / GAUSSIAN_FALLOFF) in
  WAVE_AMPLITUDE * sin phase * polarization * envelope.

(** ** Two-dimensional NumPy arrays

    An array is its shape and its items.  [item a i j] is meaningful for
    [i < nrows a] and [j < ncols a] only. *)

Record ndarray : Type := mk_ndarray {
  nrows : nat;
  ncols : nat;
  item : nat -> nat -> R
}.

(** NumPy's broadcasting rule for one axis: equal lengths, or one of them
    is 1; anything else raises [ValueError], modelled by [None]. *)

Definition broadcast_dim (a b : nat) : option nat :=
  if (a =? b)%nat then Some a
  else if (a =? 1)%nat then Some b
  else if (b =? 1)%nat then Some a
  else None.

(** The index read in an operand of length [n] for the result index [i]. *)

Definition bidx (n i : nat) : nat := if (n =? 1)%nat then 0%nat else i.

(** A unary ufunc, and a binary operator with a scalar operand. *)

Definition ufunc1 (f : R -> R) (a : ndarray) : ndarray :=
  mk_ndarray (nrows a) (ncols a) (fun i j => f (item a i j)).

(** A binary ufunc on two arrays. *)

Definition ufunc2 (f : R -> R -> R) (a b : ndarray) : option ndarray :=
  match broadcast_dim (nrows a) (nrows b), broadcast_dim (ncols a) (ncols b) with
  | Some r, Some c =>
      Some (mk_ndarray r c
              (fun i j => f (item a (bidx (nrows a) i) (bidx (ncols a) j))
                            (item b (bidx (nrows b) i) (bidx (ncols b) j))))
  | _, _ => None
  end.

(** Exceptions propagate: the error monad of the array code. *)

Definition bind {A B : Type} (m : option A) (k : A -> option B) : option B :=
  match m with
  | Some a => k a
  | None => None
  end.

Notation "x <- m ;; k" := (bind m (fun x => k))
  (at level 61, m at next level, right associativity).

(** ** Wave field model over the grid (lines 55-61) *)

Definition _wave_deformation (x_grid y_grid : ndarray) (time_seconds : R)
  : option ndarray :=
  sum_sq <- ufunc2 Rplus (ufunc1 (fun v => v ^ 2) x_grid)
                         (ufunc1 (fun v => v ^ 2) y_grid) ;;
  let r := ufunc1 (fun v => v + 1e-6) (ufunc1 sqrt sum_sq) in
  let phase :=
    ufunc1 (fun v => v - (2.0 * PI / ORBITAL_PERIOD) * time_seconds * WAVE_SPEED)
           (ufunc1 (fun v => WAVE_NUMBER * v) r) in
  diff_sq <- ufunc2 Rminus (ufunc1 (fun v => v ^ 2) x_grid)
                           (ufunc1 (fun v => v ^ 2) y_grid) ;;
  let polarization := ufunc1 (fun v => v / (SPACE_EXTENT ^ 2)) diff_sq in
  let envelope :=
    ufunc1 exp (ufunc1 (fun v => v / GAUSSIAN_FALLOFF)
                       (ufunc1 Ropp (ufunc1 (fun v => v ^ 2) r))) in
  scaled <- ufunc2 Rmult (ufunc1 (fun v => WAVE_AMPLITUDE * v) (ufunc1 sin phase))
                         polarization ;;
  ufunc2 Rmult scaled envelope.

(** ** Grid builder (lines 30-33)

    [linspace] follows [numpy.linspace] with [endpoint=True]: the samples
    are [i * step + start], and the last one is set to [stop]. *)

Definition linspace (start stop : R) (num : nat) : list R :=
  let div := (num - 1)%nat in
  let delta := stop - start in
  if (0 <? div)%nat then
    let step := delta / INR div in
    map (fun i => if (i =? div)%nat then stop else INR i * step + start)
        (seq 0 num)
  else
    map (fun i => INR i * delta + start) (seq 0 num).

(** [numpy.meshgrid] with the default [indexing='xy']: rows follow the
    second axis, columns the first. *)

Definition meshgrid (xs ys : list R) : ndarray * ndarray :=
  (mk_ndarray (length ys) (length xs) (fun _ j => nth j xs 0),
   mk_ndarray (length ys) (length xs) (fun i _ => nth i ys 0)).

Definition _build_grid : ndarray * ndarray :=
  let axis := linspace (- SPACE_EXTENT) SPACE_EXTENT GRID_POINTS in
  meshgrid axis axis.

(** ** Frame renderer and animation driver (lines 64-155)

    The drawing surface is the state of the frame loop: the axes with their
    limits, their view and the artists drawn on them, and the two
    one-element lists [surface] and [masses] the callbacks assign to. *)

Inductive artist : Type :=
| Surface (x_grid y_grid z_grid : ndarray)
| Scatter (xs ys zs : list R)
| Contour (x_grid y_grid z_grid : ndarray) (levels : nat) (offset : R).

Record axes : Type := mk_axes {
  xlim : R * R;
  ylim : R * R;
  zlim : R * R;
  view : R * R;
  artists : list artist
}.

Record render_state : Type := mk_render_state {
  ax : axes;
  surface : option artist;
  masses : option artist
}.

(** [ax.clear()] drops every artist and resets the axes. *)

Definition ax_clear (a : axes) : axes :=
  mk_axes (0, 1) (0, 1) (0, 1) (30, -60) [].

Definition _setup_axes (a : axes) : axes :=
  mk_axes (- SPACE_EXTENT, SPACE_EXTENT) (- SPACE_EXTENT, SPACE_EXTENT)
          (-1.5, 1.5) (30, 45) (artists a).

Definition ax_draw (a : axes) (art : artist) : axes :=
  mk_axes (xlim a) (ylim a) (zlim a) (view a) (artists a ++ [art]).

(** The markers of the two masses, lifted by the local displacement: the
    code [init] (lines 93-106) and [update] (lines 117-130) share.  Colours,
    sizes and the other styling arguments of [scatter] are left out. *)

Definition mass_markers (time_seconds : R) : artist :=
  let '(first, second) := _mass_positions time_seconds in
  let first_z :=
    _wave_displacement_at (fst first) (snd first) time_seconds
    + MASS_HEIGHT_OFFSET in
  let second_z :=
    _wave_displacement_at (fst second) (snd second) time_seconds
    + MASS_HEIGHT_OFFSET in
  Scatter [fst first; fst second] [snd first; snd second] [first_z; second_z].

(** Line 110: the time sample of a frame index. *)

Definition time_of_frame (frame_index : nat) : R := INR frame_index / INR FPS.

Section Callbacks.

(** The grid [main] builds once and both callbacks close over. *)
Variables x_grid y_grid : ndarray.

Definition init (st : render_state) : option render_state :=
  let a := _setup_axes (ax_clear (ax st)) in
  z_grid <- _wave_deformation x_grid y_grid 0.0 ;;
  let surf := Surface x_grid y_grid z_grid in
  let a := ax_draw a surf in
  let marks := mass_markers 0.0 in
  let a := ax_draw a marks in
  Some (mk_render_state a (Some surf) (Some marks)).

Definition update (frame_index : nat) (st : render_state)
  : option render_state :=
  let time_seconds := time_of_frame frame_index in
  let a := _setup_axes (ax_clear (ax st)) in
  z_grid <- _wave_deformation x_grid y_grid time_seconds ;;
  let surf := Surface x_grid y_grid z_grid in
  let a := ax_draw a surf in
  let marks := mass_markers time_seconds in
  let a := ax_draw a marks in
  let a := ax_draw a (Contour x_grid y_grid z_grid 8 (-1.5)) in
  Some (mk_render_state a (Some surf) (Some marks)).

(** [FuncAnimation(frames=TOTAL_FRAMES).save]: the writer draws the
    initial frame with [init], then steps through [range(frames)], calls
    [update] on each index and grabs the figure.  [calls] records the
    indices [update] was invoked with, oldest first. *)

Record driver_state : Type := mk_driver_state {
  render : render_state;
  encoded : list axes;
  calls : list nat
}.

Definition step (d : driver_state) (frame_index : nat)
  : option driver_state :=
  st <- update frame_index (render d) ;;
  Some (mk_driver_state st (encoded d ++ [ax st])
                        (calls d ++ [frame_index])).

Fixpoint run_frames (frames : list nat) (d : driver_state)
  : option driver_state :=
  match frames with
  | [] => Some d
  | i :: rest => d' <- step d i ;; run_frames rest d'
  end.

Definition save (st : render_state) : option driver_state :=
  st0 <- init st ;;
  run_frames (seq 0 TOTAL_FRAMES) (mk_driver_state st0 [] []).

End Callbacks.

(** [main]: build the grid, create the axes, render and encode. *)

Definition fresh_axes : axes := mk_axes (0, 1) (0, 1) (0, 1) (30, -60) [].

Definition main : option driver_state :=
  let '(x_grid, y_grid) := _build_grid in
  let a := _setup_axes fresh_axes in
  save x_grid y_grid (mk_render_state a None None).

(** ** The closed form of the specification

    Written from the words of the specification (section 4.3), with the
    fixed constants spelled out, to be compared with the two functions of
    the source. *)

Definition spec_radius (x y : R) : R := sqrt (x ^ 2 + y ^ 2) + 1e-6.

Definition spec_wave_field (x y t : R) : R :=
  let r := spec_radius x y in
  0.6 * sin (2.0 * r - (2 * PI / 4.0) * t)
      * ((x ^ 2 - y ^ 2) / 6.0 ^ 2)
      * exp (- r ^ 2 / 18.0).

(** The polarization term of the wave field (line 50). *)

Definition polarization_term (x y : R) : R :=
  (x ^ 2 - y ^ 2) / (SPACE_EXTENT ^ 2).

(** ** Grid points and the end-to-end scenario *)

Definition grid_point (i j : nat) : R * R :=
  (item (fst _build_grid) i j, item (snd _build_grid) i j).

Definition dist2 (p q : R * R) : R :=
  (fst p - fst q) ^ 2 + (snd p - snd q) ^ 2.

(** [(i, j)] indexes a point of the mesh no other point of the mesh is
    closer to [target] than. *)

Definition nearest_on_grid (target : R * R) (i j : nat) : Prop :=
  (i < GRID_POINTS)%nat /\ (j < GRID_POINTS)%nat /\
  forall i' j', (i' < GRID_POINTS)%nat -> (j' < GRID_POINTS)%nat ->
    dist2 (grid_point i j) target <= dist2 (grid_point i' j') target.

(** The field the first frame draws, read at one cell. *)

Definition field_at_cell (t : R) (i j : nat) : option R :=
  z_grid <- _wave_deformation (fst _build_grid) (snd _build_grid) t ;;
  Some (item z_grid i j).

(** The reference value of the scenario: the closed form at [(2.0, 0.0)]
    and [t = 0], with [r = sqrt 4 + 1e-6]. *)

Definition scenario_reference : R :=
  let r := sqrt 4 + 1e-6 in
  0.6 * sin (2.0 * r) * ((2.0 ^ 2 - 0.0 ^ 2) / 6.0 ^ 2) * exp (- r ^ 2 / 18.0).

(** ** Proof automation

    [inr_const H c] turns a bound [n <= c] (or [c <= n]) on naturals into
    the same bound on reals, with the constant [c] as a numeral. *)

Ltac inr_const H c :=
  apply le_INR in H; rewrite (INR_IZR_INZ c) in H;
  cbn [Z.of_nat Pos.of_succ_nat Pos.succ] in H.

(** * Properties *)

(** ** Arrays *)

Lemma broadcast_dim_same (n : nat) : broadcast_dim n n = Some n.
Proof. unfold broadcast_dim. now rewrite Nat.eqb_refl. Qed.

Lemma bidx_in_range (n i : nat) : (i < n)%nat -> bidx n i = i.
Proof.
  unfold bidx. intros Hi.
  destruct (Nat.eqb_spec n 1) as [-> | _]; [lia | reflexivity].
Qed.

Lemma ufunc2_broadcast (f : R -> R -> R) (a b : ndarray) (r c : nat) :
  broadcast_dim (nrows a) (nrows b) = Some r ->
  broadcast_dim (ncols a) (ncols b) = Some c ->
  ufunc2 f a b =
  Some (mk_ndarray r c
          (fun i j => f (item a (bidx (nrows a) i) (bidx (ncols a) j))
                        (item b (bidx (nrows b) i) (bidx (ncols b) j)))).
Proof. intros Hr Hc. unfold ufunc2. now rewrite Hr, Hc. Qed.

Lemma ufunc2_same_shape (f : R -> R -> R) (a b : ndarray) :
  nrows a = nrows b -> ncols a = ncols b ->
  ufunc2 f a b =
  Some (mk_ndarray (nrows a) (ncols a)
          (fun i j => f (item a (bidx (nrows a) i) (bidx (ncols a) j))
                        (item b (bidx (nrows b) i) (bidx (ncols b) j)))).
Proof.
  intros Hr Hc. unfold ufunc2.
  rewrite <- Hr, <- Hc, !broadcast_dim_same. reflexivity.
Qed.

Lemma ufunc2_shape_error (f : R -> R -> R) (a b : ndarray) :
  broadcast_dim (nrows a) (nrows b) = None \/
  broadcast_dim (ncols a) (ncols b) = None ->
  ufunc2 f a b = None.
Proof.
  unfold ufunc2. intros [-> | ->]; [reflexivity |].
  now destruct (broadcast_dim (nrows a) (nrows b)).
Qed.

(** The vectorised function, cell by cell, under NumPy's broadcasting. *)

Lemma wave_deformation_broadcast (x_grid y_grid : ndarray) (t : R) (r c : nat) :
  broadcast_dim (nrows x_grid) (nrows y_grid) = Some r ->
  broadcast_dim (ncols x_grid) (ncols y_grid) = Some c ->
  exists z_grid,
    _wave_deformation x_grid y_grid t = Some z_grid /\
    nrows z_grid = r /\ ncols z_grid = c /\
    forall i j, (i < r)%nat -> (j < c)%nat ->
      item z_grid i j =
      _wave_displacement_at
        (item x_grid (bidx (nrows x_grid) i) (bidx (ncols x_grid) j))
        (item y_grid (bidx (nrows y_grid) i) (bidx (ncols y_grid) j)) t.
Proof.
  intros Hr Hc. unfold _wave_deformation.
  rewrite !(ufunc2_broadcast _ _ _ r c) by assumption. cbn [bind].
  rewrite ufunc2_same_shape by reflexivity. cbn [bind].
  rewrite ufunc2_same_shape by reflexivity.
  eexists. split; [reflexivity |]. cbn [nrows ncols item ufunc1].
  repeat split. intros i j Hi Hj.
  rewrite !(bidx_in_range r i Hi), !(bidx_in_range c j Hj).
  unfold _wave_displacement_at. reflexivity.
Qed.

Lemma wave_deformation_cells (x_grid y_grid : ndarray) (t : R) :
  nrows x_grid = nrows y_grid -> ncols x_grid = ncols y_grid ->
  exists z_grid,
    _wave_deformation x_grid y_grid t = Some z_grid /\
    nrows z_grid = nrows x_grid /\ ncols z_grid = ncols x_grid /\
    forall i j, (i < nrows x_grid)%nat -> (j < ncols x_grid)%nat ->
      item z_grid i j =
      _wave_displacement_at (item x_grid i j) (item y_grid i j) t.
Proof.
  intros Hr Hc.
  destruct (wave_deformation_broadcast x_grid y_grid t
              (nrows x_grid) (ncols x_grid)) as (z & Hz & Hzr & Hzc & Hcell).
  - rewrite <- Hr. apply broadcast_dim_same.
  - rewrite <- Hc. apply broadcast_dim_same.
  - exists z. repeat split; trivial.
    intros i j Hi Hj. rewrite (Hcell i j Hi Hj), <- Hr, <- Hc.
    now rewrite !bidx_in_range.
Qed.

Lemma wave_deformation_shape_error (x_grid y_grid : ndarray) (t : R) :
  broadcast_dim (nrows x_grid) (nrows y_grid) = None \/
  broadcast_dim (ncols x_grid) (ncols y_grid) = None ->
  _wave_deformation x_grid y_grid t = None.
Proof.
  intros H. unfold _wave_deformation.
  rewrite ufunc2_shape_error; [reflexivity | exact H].
Qed.

(** ** Wave field model *)

Lemma wave_displacement_closed_form (x y t : R) :
  _wave_displacement_at x y t = spec_wave_field x y t.
Proof.
  unfold _wave_displacement_at, spec_wave_field, spec_radius.
  unfold WAVE_NUMBER, ORBITAL_PERIOD, WAVE_SPEED, WAVE_AMPLITUDE,
    SPACE_EXTENT, GAUSSIAN_FALLOFF.
  cbv zeta.
  replace 1.0 with 1 by lra. rewrite Rmult_1_r.
  replace (2.0 * PI) with (2 * PI) by (f_equal; lra).
  reflexivity.
Qed.

(** C1.  For every coordinate [(x, y)] and every time [t] the single-point
    function returns exactly
    [0.6 * sin (2.0 * r - (2 * PI / 4.0) * t) * ((x^2 - y^2) / 6.0^2)
     * exp (- r^2 / 18.0)] with [r = sqrt (x^2 + y^2) + 1e-6]; and on
    every pair of coordinate arrays of one shape the grid function returns
    an array of that shape holding that value in every cell. *)
Theorem wave_field_exact_closed_form :
  (forall x y t : R,
     _wave_displacement_at x y t =
     0.6 * sin (2.0 * (sqrt (x ^ 2 + y ^ 2) + 1e-6) - (2 * PI / 4.0) * t)
         * ((x ^ 2 - y ^ 2) / 6.0 ^ 2)
         * exp (- (sqrt (x ^ 2 + y ^ 2) + 1e-6) ^ 2 / 18.0)) /\
  (forall (x_grid y_grid : ndarray) (t : R),
     nrows x_grid = nrows y_grid -> ncols x_grid = ncols y_grid ->
     exists z_grid,
       _wave_deformation x_grid y_grid t = Some z_grid /\
       nrows z_grid = nrows x_grid /\ ncols z_grid = ncols x_grid /\
       forall i j, (i < nrows x_grid)%nat -> (j < ncols x_grid)%nat ->
         item z_grid i j = spec_wave_field (item x_grid i j) (item y_grid i j) t) /\
  WAVE_AMPLITUDE = 0.6 /\ WAVE_NUMBER = 2.0 /\ ORBITAL_PERIOD = 4.0 /\
  SPACE_EXTENT = 6.0 /\ GAUSSIAN_FALLOFF = 18.0.
Proof.
  split; [| split; [| repeat split]].
  - intros x y t. apply wave_displacement_closed_form.
  - intros x_grid y_grid t Hr Hc.
    destruct (wave_deformation_cells x_grid y_grid t Hr Hc)
      as (z & Hz & Hzr & Hzc & Hcell).
    exists z. repeat split; trivial.
    intros i j Hi Hj.
    now rewrite (Hcell i j Hi Hj), wave_displacement_closed_form.
Qed.

(** A 2 x 3 pair of coordinate arrays. *)
Lemma wave_field_exact_closed_form_witness :
  let x_grid := mk_ndarray 2 3 (fun _ j => INR j) in
  let y_grid := mk_ndarray 2 3 (fun i _ => INR i) in
  exists z_grid,
    _wave_deformation x_grid y_grid 0.5 = Some z_grid /\
    nrows z_grid = 2%nat /\ ncols z_grid = 3%nat /\
    forall i j, (i < 2)%nat -> (j < 3)%nat ->
      item z_grid i j = spec_wave_field (INR j) (INR i) 0.5.
Proof.
  intros x_grid y_grid.
  exact (proj1 (proj2 wave_field_exact_closed_form) x_grid y_grid 0.5
           eq_refl eq_refl).
Defined.

(** C9.  The grid function and the single-point function agree: on every
    pair of coordinate arrays of one shape, and at every time, the grid
    function returns an array of that shape whose value at each cell is the
    value of the single-point function at that cell's coordinates. *)
Theorem wave_deformation_agrees_with_displacement_at
    (x_grid y_grid : ndarray) (t : R) :
  nrows x_grid = nrows y_grid -> ncols x_grid = ncols y_grid ->
  exists z_grid,
    _wave_deformation x_grid y_grid t = Some z_grid /\
    nrows z_grid = nrows x_grid /\ ncols z_grid = ncols x_grid /\
    forall i j, (i < nrows x_grid)%nat -> (j < ncols x_grid)%nat ->
      item z_grid i j =
      _wave_displacement_at (item x_grid i j) (item y_grid i j) t.
Proof. apply wave_deformation_cells. Qed.

Lemma wave_deformation_agrees_with_displacement_at_witness :
  let x_grid := mk_ndarray 2 2 (fun _ j => INR j - 1) in
  let y_grid := mk_ndarray 2 2 (fun i _ => INR i - 1) in
  exists z_grid,
    _wave_deformation x_grid y_grid 1 = Some z_grid /\
    nrows z_grid = 2%nat /\ ncols z_grid = 2%nat /\
    forall i j, (i < 2)%nat -> (j < 2)%nat ->
      item z_grid i j = _wave_displacement_at (INR j - 1) (INR i - 1) 1.
Proof.
  intros x_grid y_grid.
  exact (wave_deformation_agrees_with_displacement_at x_grid y_grid 1
           eq_refl eq_refl).
Defined.

Lemma polarization_zero_on_diagonals (x y : R) :
  Rabs x = Rabs y -> polarization_term x y = 0.
Proof.
  intros H. unfold polarization_term.
  rewrite <- (pow2_abs x), <- (pow2_abs y), H.
  unfold Rdiv. now rewrite Rminus_diag, Rmult_0_l.
Qed.

Lemma wave_displacement_factors (x y t : R) :
  _wave_displacement_at x y t =
  WAVE_AMPLITUDE
  * sin (WAVE_NUMBER * spec_radius x y
         - (2.0 * PI / ORBITAL_PERIOD) * t * WAVE_SPEED)
  * polarization_term x y
  * exp (- spec_radius x y ^ 2 / GAUSSIAN_FALLOFF).
Proof. reflexivity. Qed.

Lemma wave_displacement_zero_on_diagonals (x y t : R) :
  Rabs x = Rabs y -> _wave_displacement_at x y t = 0.
Proof.
  intros H. rewrite wave_displacement_factors.
  rewrite (polarization_zero_on_diagonals x y H). ring.
Qed.

Lemma polarization_bounded (x y : R) :
  Rabs x <= SPACE_EXTENT -> Rabs y <= SPACE_EXTENT ->
  Rabs (polarization_term x y) <= 1.
Proof.
  unfold polarization_term, SPACE_EXTENT. intros Hx Hy.
  assert (Hx2 : 0 <= x ^ 2 <= 36).
  { rewrite <- (pow2_abs x). pose proof (Rabs_pos x). nra. }
  assert (Hy2 : 0 <= y ^ 2 <= 36).
  { rewrite <- (pow2_abs y). pose proof (Rabs_pos y). nra. }
  replace (6.0 ^ 2) with 36 by lra.
  apply Rabs_le. lra.
Qed.

Lemma envelope_bounded (r : R) :
  0 < exp (- r ^ 2 / GAUSSIAN_FALLOFF) <= 1.
Proof.
  split; [apply exp_pos |].
  rewrite <- exp_0. unfold GAUSSIAN_FALLOFF.
  destruct (Rle_lt_or_eq_dec (- r ^ 2 / 18.0) 0) as [Hlt | Heq].
  - pose proof (pow2_ge_0 r). lra.
  - left. now apply exp_increasing.
  - rewrite Heq. lra.
Qed.

Lemma product_bounded (a s p e : R) :
  0 <= a -> Rabs s <= 1 -> Rabs p <= 1 -> 0 < e <= 1 ->
  Rabs (a * s * p * e) <= a.
Proof.
  intros Ha Hs Hp He.
  rewrite !Rabs_mult, (Rabs_pos_eq a Ha), (Rabs_pos_eq e) by lra.
  pose proof (Rabs_pos s). pose proof (Rabs_pos p).
  assert (Hsp : Rabs s * Rabs p <= 1) by nra.
  assert (Hsp0 : 0 <= Rabs s * Rabs p) by nra.
  assert (Hspe : Rabs s * Rabs p * e <= 1) by nra.
  assert (Hspe0 : 0 <= Rabs s * Rabs p * e) by nra.
  replace (a * Rabs s * Rabs p * e) with (a * (Rabs s * Rabs p * e)) by ring.
  nra.
Qed.

Lemma wave_displacement_bounded (x y t : R) :
  Rabs x <= SPACE_EXTENT -> Rabs y <= SPACE_EXTENT ->
  Rabs (_wave_displacement_at x y t) <= WAVE_AMPLITUDE.
Proof.
  intros Hx Hy. rewrite wave_displacement_factors.
  apply product_bounded.
  - unfold WAVE_AMPLITUDE. lra.
  - apply Rabs_le, SIN_bound.
  - now apply polarization_bounded.
  - apply envelope_bounded.
Qed.

Lemma wave_displacement_origin (t : R) : _wave_displacement_at 0 0 t = 0.
Proof. now apply wave_displacement_zero_on_diagonals. Qed.

(** C5.  At the point [(0, 0)] the radius the function works with is the
    guard [1e-6], not zero, and for every time [t] the value of the wave
    field there is a real number of magnitude at most the amplitude
    constant [0.6]. *)
Theorem wave_field_at_origin_bounded (t : R) :
  spec_radius 0 0 = 1e-6 /\ spec_radius 0 0 <> 0 /\
  Rabs (_wave_displacement_at 0 0 t) <= WAVE_AMPLITUDE /\
  WAVE_AMPLITUDE = 0.6.
Proof.
  assert (Hr : spec_radius 0 0 = 1e-6).
  { unfold spec_radius. replace (0 ^ 2 + 0 ^ 2) with 0 by ring.
    rewrite sqrt_0. lra. }
  repeat split; trivial.
  - rewrite Hr. lra.
  - rewrite wave_displacement_origin, Rabs_R0. unfold WAVE_AMPLITUDE. lra.
Qed.

(** C6.  For every point [(x, y)] with [|x| = |y|] and every time [t], the
    polarization term [(x^2 - y^2) / extent^2] is zero and so is the wave
    displacement at that point. *)
Theorem polarization_vanishes_on_diagonals (x y t : R) :
  Rabs x = Rabs y ->
  polarization_term x y = 0 /\ _wave_displacement_at x y t = 0.
Proof.
  intros H. split.
  - now apply polarization_zero_on_diagonals.
  - now apply wave_displacement_zero_on_diagonals.
Qed.

Lemma polarization_vanishes_on_diagonals_witness :
  polarization_term 3 (-3) = 0 /\ _wave_displacement_at 3 (-3) 7 = 0.
Proof.
  apply (polarization_vanishes_on_diagonals 3 (-3) 7).
  rewrite (Rabs_right 3), (Rabs_left (-3)) by lra. lra.
Defined.

(** C10.  For every point of the spatial domain, [|x| <= extent] and
    [|y| <= extent], and every time [t], the magnitude of the wave
    displacement is at most the amplitude constant [0.6]; at the origin
    the displacement is exactly zero for every [t]. *)
Theorem wave_displacement_bounded_on_domain :
  (forall x y t : R,
     Rabs x <= SPACE_EXTENT -> Rabs y <= SPACE_EXTENT ->
     Rabs (_wave_displacement_at x y t) <= 0.6) /\
  (forall t : R, _wave_displacement_at 0 0 t = 0).
Proof.
  split.
  - intros x y t Hx Hy.
    apply (wave_displacement_bounded x y t Hx Hy).
  - apply wave_displacement_origin.
Qed.

Lemma wave_displacement_bounded_on_domain_witness :
  Rabs (_wave_displacement_at 6 (-2.5) 1.25) <= 0.6.
Proof.
  apply (proj1 wave_displacement_bounded_on_domain 6 (-2.5) 1.25).
  - unfold SPACE_EXTENT. apply Rabs_le. lra.
  - unfold SPACE_EXTENT. apply Rabs_le. lra.
Defined.

(** ** Mass trajectory model *)

Lemma mass_positions_formula (t : R) :
  _mass_positions t =
  ((ORBITAL_RADIUS * cos (2 * PI * t / ORBITAL_PERIOD),
    ORBITAL_RADIUS * sin (2 * PI * t / ORBITAL_PERIOD)),
   (- (ORBITAL_RADIUS * cos (2 * PI * t / ORBITAL_PERIOD)),
    - (ORBITAL_RADIUS * sin (2 * PI * t / ORBITAL_PERIOD)))).
Proof.
  unfold _mass_positions. cbv zeta.
  replace (2.0 * PI / ORBITAL_PERIOD * t) with (2 * PI * t / ORBITAL_PERIOD)
    by (unfold ORBITAL_PERIOD; replace 2.0 with 2 by lra;
        unfold Rdiv; ring).
  now rewrite !Ropp_mult_distr_l.
Qed.

Lemma circle_norm (rho a : R) :
  0 <= rho -> vnorm (rho * cos a, rho * sin a) = rho.
Proof.
  intros Hrho. unfold vnorm. cbn [fst snd].
  replace ((rho * cos a) ^ 2 + (rho * sin a) ^ 2)
    with (rho * rho * (Rsqr (sin a) + Rsqr (cos a)))
    by (unfold Rsqr; ring).
  rewrite sin2_cos2, Rmult_1_r. now apply sqrt_square.
Qed.

Lemma vnorm_vneg (p : vec2) : vnorm (vneg p) = vnorm p.
Proof.
  unfold vnorm, vneg. cbn [fst snd]. f_equal. ring.
Qed.

(** C3.  For every time [t] the two positions sum to the zero vector, each
    has Euclidean magnitude equal to the orbital radius [1.4], the first is
    [radius * (cos (2 PI t / period), sin (2 PI t / period))] and the second
    is its negation. *)
Theorem mass_positions_antipodal_on_orbit (t : R) :
  let first := fst (_mass_positions t) in
  let second := snd (_mass_positions t) in
  vadd first second = (0, 0) /\
  vnorm first = ORBITAL_RADIUS /\ vnorm second = ORBITAL_RADIUS /\
  ORBITAL_RADIUS = 1.4 /\
  first = (ORBITAL_RADIUS * cos (2 * PI * t / ORBITAL_PERIOD),
           ORBITAL_RADIUS * sin (2 * PI * t / ORBITAL_PERIOD)) /\
  second = vneg first.
Proof.
  intros first second. subst first second.
  rewrite mass_positions_formula. cbn [fst snd].
  assert (Hrho : 0 <= ORBITAL_RADIUS) by (unfold ORBITAL_RADIUS; lra).
  repeat split.
  - unfold vadd. cbn [fst snd]. f_equal; ring.
  - now apply circle_norm.
  - change (vnorm (vneg (ORBITAL_RADIUS * cos (2 * PI * t / ORBITAL_PERIOD),
                         ORBITAL_RADIUS * sin (2 * PI * t / ORBITAL_PERIOD)))
            = ORBITAL_RADIUS).
    rewrite vnorm_vneg. now apply circle_norm.
Qed.

(** C7.  The mass trajectory is periodic with the orbital period of 4.0
    seconds: for every time [t] the positions at [t + period] are the
    positions at [t]. *)
Theorem mass_positions_periodic (t : R) :
  _mass_positions (t + ORBITAL_PERIOD) = _mass_positions t /\
  ORBITAL_PERIOD = 4.0.
Proof.
  split; [| reflexivity].
  rewrite !mass_positions_formula.
  replace (2 * PI * (t + ORBITAL_PERIOD) / ORBITAL_PERIOD)
    with (2 * PI * t / ORBITAL_PERIOD + 2 * PI)
    by (unfold ORBITAL_PERIOD; lra).
  now rewrite cos_plus, sin_plus, sin_2PI, cos_2PI, !Rmult_0_r, !Rmult_1_r,
    Rminus_0_r, Rplus_0_r.
Qed.

(** ** Frame renderer and animation driver *)

Section DriverFacts.

Variables x_grid y_grid : ndarray.

(** A frame depends on the state it is drawn over in no way, and on the
    frame index through its time sample only. *)
Lemma update_depends_on_time_only (i i' : nat) (st st' : render_state) :
  time_of_frame i = time_of_frame i' ->
  update x_grid y_grid i st = update x_grid y_grid i' st'.
Proof. intros H. unfold update. now rewrite H. Qed.


Hypothesis same_rows : nrows x_grid = nrows y_grid.
Hypothesis same_cols : ncols x_grid = ncols y_grid.

Lemma init_returns (st : render_state) :
  exists st', init x_grid y_grid st = Some st'.
Proof.
  unfold init.
  destruct (wave_deformation_cells x_grid y_grid 0.0 same_rows same_cols)
    as (z & -> & _). cbn [bind]. eauto.
Qed.

Lemma update_returns (i : nat) (st : render_state) :
  exists st', update x_grid y_grid i st = Some st'.
Proof.
  unfold update.
  destruct (wave_deformation_cells x_grid y_grid (time_of_frame i)
              same_rows same_cols) as (z & -> & _).
  cbn [bind]. eauto.
Qed.

(** The frame loop: one call of [update] and one grabbed frame per index,
    in the order of the indices. *)
Lemma run_frames_trace (frames : list nat) :
  forall d : driver_state,
  exists d' grabbed,
    run_frames x_grid y_grid frames d = Some d' /\
    calls d' = calls d ++ frames /\
    encoded d' = encoded d ++ grabbed /\
    Forall2 (fun i a => forall st,
               option_map ax (update x_grid y_grid i st) = Some a)
            frames grabbed.
Proof.
  induction frames as [| i rest IH]; intros d; cbn [run_frames].
  - exists d, []. now rewrite !app_nil_r.
  - unfold step.
    destruct (update_returns i (render d)) as (st1 & Hst1).
    rewrite Hst1. cbn [bind].
    destruct (IH (mk_driver_state st1 (encoded d ++ [ax st1])
                                  (calls d ++ [i])))
      as (d' & grabbed & Hrun & Hcalls & Henc & Hall).
    exists d', (ax st1 :: grabbed). cbn [calls encoded] in Hcalls, Henc.
    rewrite Hrun, Hcalls, Henc, <- !app_assoc. cbn [app].
    repeat split. constructor; [| exact Hall].
    intros st.
    rewrite (update_depends_on_time_only i i st (render d) eq_refl), Hst1.
    reflexivity.
Qed.

Lemma save_trace (st : render_state) :
  exists d,
    save x_grid y_grid st = Some d /\
    calls d = seq 0 TOTAL_FRAMES /\
    Forall2 (fun i a => forall st',
               option_map ax (update x_grid y_grid i st') = Some a)
            (seq 0 TOTAL_FRAMES) (encoded d).
Proof.
  unfold save. destruct (init_returns st) as (st0 & ->). cbn [bind].
  destruct (run_frames_trace (seq 0 TOTAL_FRAMES)
              (mk_driver_state st0 [] []))
    as (d & grabbed & Hrun & Hcalls & Henc & Hall).
  exists d. cbn [calls encoded app] in Hcalls, Henc.
  rewrite Hrun, Hcalls, Henc. now repeat split.
Qed.

End DriverFacts.

Lemma linspace_length (start stop : R) (num : nat) :
  length (linspace start stop num) = num.
Proof.
  unfold linspace.
  destruct (0 <? num - 1)%nat; now rewrite length_map, length_seq.
Qed.

Lemma build_grid_shape :
  nrows (fst _build_grid) = GRID_POINTS /\
  ncols (fst _build_grid) = GRID_POINTS /\
  nrows (snd _build_grid) = GRID_POINTS /\
  ncols (snd _build_grid) = GRID_POINTS.
Proof.
  unfold _build_grid, meshgrid. cbn [fst snd nrows ncols].
  now rewrite linspace_length.
Qed.






(** ** Numeric bounds on [PI], [sin] and [exp] *)

Lemma PI_bounds : 3.1415 < PI < 3.1421.
Proof.
  pose proof (PI_2_3_7_ineq 1) as [Hlo Hhi].
  unfold tg_alt, PI_2_3_7_tg, Ratan_seq in Hlo, Hhi.
  cbn [sum_f_R0 Nat.mul Nat.add pow] in Hlo, Hhi.
  repeat rewrite INR_IZR_INZ in Hlo. repeat rewrite INR_IZR_INZ in Hhi.
  cbn [Z.of_nat Pos.of_succ_nat Pos.succ] in Hlo, Hhi.
  lra.
Qed.

Lemma sin_taylor_bounds (a : R) :
  0 <= a <= 4 ->
  a - a ^ 3 / 6 <= sin a <= a - a ^ 3 / 6 + a ^ 5 / 120.
Proof.
  intros [H0 H4].
  pose proof (pre_sin_bound a 0 H0 H4) as H.
  unfold sin_approx, sin_term in H.
  cbn [sum_f_R0 Nat.mul Nat.add pow Factorial.fact] in H.
  repeat rewrite INR_IZR_INZ in H.
  cbn [Z.of_nat Pos.of_succ_nat Pos.succ] in H.
  cbn [pow]. lra.
Qed.

Lemma sin_past_PI (x : R) : sin x = - sin (x - PI).
Proof.
  replace x with (x - PI + PI) at 1 by ring. apply neg_sin.
Qed.

Lemma exp_neg_above (w : R) : 1 - w <= exp (- w).
Proof. pose proof (exp_ineq1_le (- w)). lra. Qed.

Lemma exp_neg_below (w : R) : 0 <= w -> exp (- w) <= / (1 + w).
Proof.
  intros Hw. rewrite exp_Ropp.
  apply Rinv_le_contravar; [lra | apply exp_ineq1_le].
Qed.

Lemma sin_low_band (u : R) : 0.8579 < u < 0.8586 -> 0.75 < sin u.
Proof.
  intros Hu. destruct (sin_taylor_bounds u) as [Hlo _]; [lra |].
  assert (H2 : u * u < 0.7372) by nra.
  assert (H3 : u ^ 3 < 0.633) by (cbn [pow]; nra).
  lra.
Qed.

Lemma sin_high_band (u : R) : 0.7275 < u < 0.7284 -> 0 < sin u < 0.667.
Proof.
  intros Hu. destruct (sin_taylor_bounds u) as [Hlo Hhi]; [lra |].
  assert (H2 : 0.5292 < u * u < 0.5306) by nra.
  assert (H3 : 0.3849 < u ^ 3 < 0.3865) by (cbn [pow]; nra).
  assert (H5 : u ^ 5 < 0.2051).
  { replace (u ^ 5) with (u ^ 3 * (u * u)) by ring. nra. }
  lra.
Qed.

(** ** The mesh *)

Lemma nth_map_seq (f : nat -> R) (n k : nat) :
  (k < n)%nat -> nth k (map f (seq 0 n)) 0 = f k.
Proof.
  intros Hk.
  rewrite (nth_indep _ 0 (f 0%nat)) by now rewrite length_map, length_seq.
  now rewrite map_nth, seq_nth.
Qed.

Lemma axis_value (k : nat) :
  (k < GRID_POINTS)%nat ->
  nth k (linspace (- SPACE_EXTENT) SPACE_EXTENT GRID_POINTS) 0
  = (12 * INR k - 354) / 59.
Proof.
  unfold GRID_POINTS, SPACE_EXTENT. intros Hk.
  unfold linspace. cbv zeta.
  change (60 - 1)%nat with 59%nat. change (0 <? 59)%nat with true.
  cbv iota. rewrite nth_map_seq by exact Hk.
  rewrite (INR_IZR_INZ 59). cbn [Z.of_nat Pos.of_succ_nat Pos.succ].
  destruct (Nat.eqb_spec k 59) as [-> | _].
  - rewrite (INR_IZR_INZ 59). cbn [Z.of_nat Pos.of_succ_nat Pos.succ]. lra.
  - lra.
Qed.

Lemma grid_point_value (i j : nat) :
  (i < GRID_POINTS)%nat -> (j < GRID_POINTS)%nat ->
  grid_point i j = ((12 * INR j - 354) / 59, (12 * INR i - 354) / 59).
Proof.
  intros Hi Hj. unfold grid_point, _build_grid, meshgrid.
  cbn [fst snd item]. now rewrite !axis_value.
Qed.

Lemma dist2_to_scenario_point (i j : nat) :
  (i < GRID_POINTS)%nat -> (j < GRID_POINTS)%nat ->
  dist2 (grid_point i j) (2.0, 0.0)
  = ((12 * INR j - 472) ^ 2 + (12 * INR i - 354) ^ 2) / 3481.
Proof.
  intros Hi Hj. rewrite grid_point_value by assumption.
  unfold dist2. cbn [fst snd].
  replace 2.0 with 2 by lra. replace 0.0 with 0 by lra. field.
Qed.

Lemma column_gap (j : nat) :
  16 <= (12 * INR j - 472) ^ 2 /\
  (j <> 39%nat -> 64 <= (12 * INR j - 472) ^ 2).
Proof.
  destruct (Nat.eq_dec j 39) as [-> | Hne].
  - rewrite (INR_IZR_INZ 39). cbn [Z.of_nat Pos.of_succ_nat Pos.succ].
    split; [lra | easy].
  - assert (Hj : (j <= 38 \/ 40 <= j)%nat) by lia.
    destruct Hj as [Hj | Hj]; [inr_const Hj 38%nat | inr_const Hj 40%nat];
      (split; [| intros _]; nra).
Qed.

Lemma row_gap (i : nat) :
  36 <= (12 * INR i - 354) ^ 2 /\
  (i <> 29%nat -> i <> 30%nat -> 324 <= (12 * INR i - 354) ^ 2).
Proof.
  assert (Hi : (i <= 28 \/ i = 29 \/ i = 30 \/ 31 <= i)%nat) by lia.
  destruct Hi as [Hi | [-> | [-> | Hi]]].
  - inr_const Hi 28%nat. split; [| intros _ _]; nra.
  - rewrite (INR_IZR_INZ 29). cbn [Z.of_nat Pos.of_succ_nat Pos.succ].
    split; [lra | easy].
  - rewrite (INR_IZR_INZ 30). cbn [Z.of_nat Pos.of_succ_nat Pos.succ].
    split; [lra | easy].
  - inr_const Hi 31%nat. split; [| intros _ _]; nra.
Qed.

Lemma nearest_to_scenario_point (i j : nat) :
  nearest_on_grid (2.0, 0.0) i j <-> (i = 29%nat \/ i = 30%nat) /\ j = 39%nat.
Proof.
  split.
  - intros (Hi & Hj & Hmin).
    assert (H29 : (29 < GRID_POINTS)%nat) by (unfold GRID_POINTS; lia).
    assert (H39 : (39 < GRID_POINTS)%nat) by (unfold GRID_POINTS; lia).
    specialize (Hmin 29%nat 39%nat H29 H39).
    rewrite !dist2_to_scenario_point in Hmin by assumption.
    rewrite (INR_IZR_INZ 29), (INR_IZR_INZ 39) in Hmin.
    cbn [Z.of_nat Pos.of_succ_nat Pos.succ] in Hmin.
    destruct (column_gap j) as [Hc Hc']. destruct (row_gap i) as [Hr Hr'].
    split.
    + destruct (Nat.eq_dec i 29) as [-> | N29]; [now left |].
      destruct (Nat.eq_dec i 30) as [-> | N30]; [now right |].
      specialize (Hr' N29 N30). lra.
    + destruct (Nat.eq_dec j 39) as [-> | N39]; [reflexivity |].
      specialize (Hc' N39). lra.
  - intros [Hi ->].
    assert (Hi' : (i < GRID_POINTS)%nat) by (unfold GRID_POINTS; lia).
    assert (H39 : (39 < GRID_POINTS)%nat) by (unfold GRID_POINTS; lia).
    repeat split; trivial. intros i' j' Hi'' Hj''.
    rewrite !dist2_to_scenario_point by assumption.
    destruct (column_gap j') as [Hc _]. destruct (row_gap i') as [Hr _].
    rewrite (INR_IZR_INZ 39). cbn [Z.of_nat Pos.of_succ_nat Pos.succ].
    destruct Hi as [-> | ->];
      [rewrite (INR_IZR_INZ 29) | rewrite (INR_IZR_INZ 30)];
      cbn [Z.of_nat Pos.of_succ_nat Pos.succ]; lra.
Qed.

(** ** The end-to-end scenario *)

Lemma field_at_cell_value (t : R) (i j : nat) :
  (i < GRID_POINTS)%nat -> (j < GRID_POINTS)%nat ->
  field_at_cell t i j
  = Some (spec_wave_field (fst (grid_point i j)) (snd (grid_point i j)) t).
Proof.
  intros Hi Hj. unfold field_at_cell.
  destruct build_grid_shape as (Hxr & Hxc & Hyr & Hyc).
  destruct (wave_deformation_cells (fst _build_grid) (snd _build_grid) t
              (eq_trans Hxr (eq_sym Hyr)) (eq_trans Hxc (eq_sym Hyc)))
    as (z & -> & _ & _ & Hcell).
  cbn [bind]. rewrite Hcell by (rewrite ?Hxr, ?Hxc; assumption).
  now rewrite wave_displacement_closed_form.
Qed.

Lemma scenario_reference_below : scenario_reference < -0.038.
Proof.
  unfold scenario_reference. cbv zeta.
  replace (sqrt 4) with 2
    by (replace 4 with (2 * 2) by lra; now rewrite sqrt_square by lra).
  replace (2.0 * (2 + 1e-6)) with 4.000002 by lra.
  replace (- (2 + 1e-6) ^ 2 / 18.0) with (- ((2 + 1e-6) ^ 2 / 18.0)) by lra.
  replace ((2.0 ^ 2 - 0.0 ^ 2) / 6.0 ^ 2) with (/ 9) by lra.
  rewrite (sin_past_PI 4.000002).
  pose proof PI_bounds as HPI.
  pose proof (sin_low_band (4.000002 - PI)) as Hs.
  pose proof (exp_neg_above ((2 + 1e-6) ^ 2 / 18.0)) as He.
  set (s := sin (4.000002 - PI)) in *.
  set (e := exp (- ((2 + 1e-6) ^ 2 / 18.0))) in *.
  assert (Hs' : 0.75 < s) by (apply Hs; lra).
  assert (He' : 0.7777 < e) by lra.
  nra.
Qed.

Lemma grid_radius_band (y : R) :
  y ^ 2 = 36 / 3481 ->
  1.9348 < sqrt ((114 / 59) ^ 2 + y ^ 2) < 1.9349.
Proof.
  intros ->.
  assert (Hv : 0 <= (114 / 59) ^ 2 + 36 / 3481) by lra.
  pose proof (sqrt_sqrt _ Hv) as Hsq. pose proof (sqrt_pos ((114 / 59) ^ 2 + 36 / 3481)) as Hpos.
  set (s := sqrt ((114 / 59) ^ 2 + 36 / 3481)) in *.
  assert (Hval : s * s = 13032 / 3481) by lra.
  split; nra.
Qed.

Lemma field_near_scenario_point_above (y : R) :
  y ^ 2 = 36 / 3481 -> -0.035 < spec_wave_field (114 / 59) y 0.
Proof.
  intros Hy. unfold spec_wave_field, spec_radius. cbv zeta.
  pose proof (grid_radius_band y Hy) as Hr. rewrite Hy in *.
  set (s := sqrt ((114 / 59) ^ 2 + 36 / 3481)) in *.
  replace (2.0 * (s + 1e-6) - 2 * PI / 4.0 * 0) with (2 * s + 0.000002) by lra.
  replace (((114 / 59) ^ 2 - 36 / 3481) / 6.0 ^ 2) with (360 / 3481) by lra.
  replace (- (s + 1e-6) ^ 2 / 18.0) with (- ((s + 1e-6) ^ 2 / 18.0)) by lra.
  rewrite (sin_past_PI (2 * s + 0.000002)).
  pose proof PI_bounds as HPI.
  pose proof (sin_high_band (2 * s + 0.000002 - PI)) as Hs.
  assert (Hw : 0.2079 < (s + 1e-6) ^ 2 / 18.0) by nra.
  pose proof (exp_neg_below ((s + 1e-6) ^ 2 / 18.0)) as He.
  pose proof (exp_pos (- ((s + 1e-6) ^ 2 / 18.0))) as He0.
  set (w := (s + 1e-6) ^ 2 / 18.0) in *.
  assert (Hinv : / (1 + w) < 0.828).
  { apply Rmult_lt_reg_r with (r := 1 + w); [lra |].
    rewrite Rinv_l by lra. nra. }
  set (sn := sin (2 * s + 0.000002 - PI)) in *.
  set (e := exp (- w)) in *.
  assert (Hs' : 0 < sn < 0.667) by (apply Hs; lra).
  assert (He' : e < 0.828) by (specialize (He ltac:(lra)); lra).
  nra.
Qed.

(** C2 as stated fails on the mesh the code builds: row 29, column 39 holds a point of the mesh nearest to
    [(2.0, 0.0)], namely [(114/59, -6/59)], and the field there is further
    than [1e-6] from the reference value. *)
Lemma scenario_nearest_point_misses_reference :
  nearest_on_grid (2.0, 0.0) 29 39 /\
  grid_point 29 39 = (114 / 59, -6 / 59) /\
  field_at_cell 0 29 39 = Some (spec_wave_field (114 / 59) (-6 / 59) 0) /\
  spec_wave_field (114 / 59) (-6 / 59) 0 <> scenario_reference /\
  ~ Rabs (spec_wave_field (114 / 59) (-6 / 59) 0 - scenario_reference) <= 1e-6.
Proof.
  assert (Hpt : grid_point 29 39 = (114 / 59, -6 / 59)).
  { rewrite grid_point_value by (unfold GRID_POINTS; lia).
    rewrite (INR_IZR_INZ 29), (INR_IZR_INZ 39).
    cbn [Z.of_nat Pos.of_succ_nat Pos.succ]. f_equal; lra. }
  assert (Hgap : 0.003 < spec_wave_field (114 / 59) (-6 / 59) 0
                         - scenario_reference).
  { pose proof scenario_reference_below.
    pose proof (field_near_scenario_point_above (-6 / 59)
                  ltac:(lra)). lra. }
  split; [| split; [| split; [| split]]].
  - apply nearest_to_scenario_point. auto.
  - exact Hpt.
  - rewrite field_at_cell_value by (unfold GRID_POINTS; lia).
    now rewrite Hpt.
  - lra.
  - intros Habs.
    pose proof (Rle_abs (spec_wave_field (114 / 59) (-6 / 59) 0
                         - scenario_reference)). lra.
Qed.

(** C2, amended.  At [t = 0] the points of the 60 x 60 mesh nearest to
    [(2.0, 0.0)] are [(114/59, -6/59)] and [(114/59, 6/59)], in column 39
    and rows 29 and 30.  The field value there is the closed form
    [amplitude * sin (k * r) * ((x^2 - y^2) / extent^2) * exp (- r^2 / falloff)]
    at that point's own coordinates, [r = sqrt (x^2 + y^2) + 1e-6], and it
    exceeds the reference value at the exact point [(2.0, 0.0)] by more
    than [0.003]. *)
Theorem scenario_field_at_nearest_grid_point (i j : nat) :
  nearest_on_grid (2.0, 0.0) i j ->
  exists x y v : R,
    (i = 29%nat \/ i = 30%nat) /\ j = 39%nat /\
    grid_point i j = (x, y) /\
    x = 114 / 59 /\ (y = -6 / 59 \/ y = 6 / 59) /\
    field_at_cell 0 i j = Some v /\
    v = 0.6 * sin (2.0 * (sqrt (x ^ 2 + y ^ 2) + 1e-6))
            * ((x ^ 2 - y ^ 2) / 6.0 ^ 2)
            * exp (- (sqrt (x ^ 2 + y ^ 2) + 1e-6) ^ 2 / 18.0) /\
    0.003 < v - scenario_reference.
Proof.
  intros Hnear.
  pose proof (proj1 (nearest_to_scenario_point i j) Hnear) as [Hi ->].
  destruct Hnear as (Hi' & Hj' & _).
  exists (114 / 59), (snd (grid_point i 39)),
    (spec_wave_field (114 / 59) (snd (grid_point i 39)) 0).
  assert (Hpt : grid_point i 39 = (114 / 59, snd (grid_point i 39))).
  { rewrite grid_point_value by assumption. cbn [snd].
    rewrite (INR_IZR_INZ 39). cbn [Z.of_nat Pos.of_succ_nat Pos.succ].
    f_equal. lra. }
  assert (Hy : snd (grid_point i 39) = -6 / 59 \/
               snd (grid_point i 39) = 6 / 59).
  { rewrite grid_point_value by assumption. cbn [snd].
    destruct Hi as [-> | ->];
      [rewrite (INR_IZR_INZ 29) | rewrite (INR_IZR_INZ 30)];
      cbn [Z.of_nat Pos.of_succ_nat Pos.succ]; [left | right]; lra. }
  assert (Hy2 : snd (grid_point i 39) ^ 2 = 36 / 3481)
    by (destruct Hy as [-> | ->]; lra).
  repeat split; trivial.
  - rewrite field_at_cell_value by assumption. now rewrite Hpt at 1.
  - unfold spec_wave_field, spec_radius. cbv zeta.
    now replace (2 * PI / 4.0 * 0) with 0 by lra; rewrite Rminus_0_r.
  - pose proof scenario_reference_below.
    pose proof (field_near_scenario_point_above _ Hy2). lra.
Qed.

Lemma scenario_field_at_nearest_grid_point_witness :
  exists x y v : R,
    (30 = 29 \/ 30 = 30)%nat /\ 39%nat = 39%nat /\
    grid_point 30 39 = (x, y) /\
    x = 114 / 59 /\ (y = -6 / 59 \/ y = 6 / 59) /\
    field_at_cell 0 30 39 = Some v /\
    v = 0.6 * sin (2.0 * (sqrt (x ^ 2 + y ^ 2) + 1e-6))
            * ((x ^ 2 - y ^ 2) / 6.0 ^ 2)
            * exp (- (sqrt (x ^ 2 + y ^ 2) + 1e-6) ^ 2 / 18.0) /\
    0.003 < v - scenario_reference.
Proof.
  apply (scenario_field_at_nearest_grid_point 30 39).
  apply nearest_to_scenario_point. auto.
Defined.

(** * Further properties of the wave field *)

Lemma spec_radius_swap (x y : R) : spec_radius y x = spec_radius x y.
Proof. unfold spec_radius. now rewrite (Rplus_comm (y ^ 2)). Qed.

Lemma spec_radius_mirror (x y : R) :
  spec_radius (- x) y = spec_radius x y /\
  spec_radius x (- y) = spec_radius x y.
Proof.
  unfold spec_radius.
  split; [replace ((- x) ^ 2) with (x ^ 2) by ring
         | replace ((- y) ^ 2) with (y ^ 2) by ring]; reflexivity.
Qed.

Lemma polarization_mirror (x y : R) :
  polarization_term (- x) y = polarization_term x y /\
  polarization_term x (- y) = polarization_term x y.
Proof.
  unfold polarization_term.
  split; [replace ((- x) ^ 2) with (x ^ 2) by ring
         | replace ((- y) ^ 2) with (y ^ 2) by ring]; reflexivity.
Qed.

Lemma wave_displacement_mirror_x (x y t : R) :
  _wave_displacement_at (- x) y t = _wave_displacement_at x y t.
Proof.
  rewrite !wave_displacement_factors.
  now rewrite (proj1 (spec_radius_mirror x y)),
    (proj1 (polarization_mirror x y)).
Qed.

Lemma wave_displacement_mirror_y (x y t : R) :
  _wave_displacement_at x (- y) t = _wave_displacement_at x y t.
Proof.
  rewrite !wave_displacement_factors.
  now rewrite (proj2 (spec_radius_mirror x y)),
    (proj2 (polarization_mirror x y)).
Qed.

Lemma wave_displacement_swap (x y t : R) :
  _wave_displacement_at y x t = - _wave_displacement_at x y t.
Proof.
  rewrite !wave_displacement_factors, spec_radius_swap.
  replace (polarization_term y x) with (- polarization_term x y)
    by (unfold polarization_term, Rdiv; ring).
  ring.
Qed.

(** X1.  The wave field is mirror symmetric about both coordinate axes and
    about the origin: flipping the sign of [x], of [y] or of both leaves the
    displacement unchanged, at every time. *)
Theorem wave_displacement_mirror_symmetric (x y t : R) :
  _wave_displacement_at (- x) y t = _wave_displacement_at x y t /\
  _wave_displacement_at x (- y) t = _wave_displacement_at x y t /\
  _wave_displacement_at (- x) (- y) t = _wave_displacement_at x y t.
Proof.
  repeat split.
  - apply wave_displacement_mirror_x.
  - apply wave_displacement_mirror_y.
  - now rewrite wave_displacement_mirror_x, wave_displacement_mirror_y.
Qed.

(** X2.  Exchanging the two coordinates negates the displacement: the
    field is antisymmetric about the diagonal [x = y], the quadrupole
    pattern of the polarization term. *)
Theorem wave_displacement_antisymmetric_under_swap (x y t : R) :
  _wave_displacement_at y x t = - _wave_displacement_at x y t.
Proof. apply wave_displacement_swap. Qed.







Lemma exp_dominates_double (u : R) : 2 * u <= exp u.
Proof.
  replace u with (u / 2 + u / 2) at 2 by lra.
  rewrite exp_plus. pose proof (exp_ineq1_le (u / 2)) as H.
  pose proof (exp_pos (u / 2)) as Hp.
  set (E := exp (u / 2)) in *.
  destruct (Rle_lt_dec 0 (1 + u / 2)) as [Hge | Hlt].
  - assert (Hsq : (1 + u / 2) * (1 + u / 2) <= E * E)
      by (apply Rmult_le_compat; lra).
    pose proof (Rle_0_sqr (1 - u / 2)) as Hquad. unfold Rsqr in Hquad.
    lra.
  - assert (0 < E * E) by nra. lra.
Qed.

Lemma damped_growth_bounded (u : R) : u * exp (- u) <= / 2.
Proof.
  pose proof (exp_dominates_double u) as Hd.
  pose proof (exp_pos u) as HE. pose proof (exp_pos (- u)) as He.
  assert (Hinv : exp (- u) * exp u = 1).
  { rewrite <- exp_plus. replace (- u + u) with 0 by ring. apply exp_0. }
  nra.
Qed.

Lemma spec_radius_sq_dominates (x y : R) :
  x ^ 2 + y ^ 2 <= spec_radius x y ^ 2.
Proof.
  unfold spec_radius.
  assert (Hv : 0 <= x ^ 2 + y ^ 2) by nra.
  pose proof (sqrt_sqrt _ Hv) as Hs. pose proof (sqrt_pos (x ^ 2 + y ^ 2)) as Hp.
  set (s := sqrt (x ^ 2 + y ^ 2)) in *. nra.
Qed.

Lemma polarization_envelope_bounded (x y : R) :
  Rabs (polarization_term x y)
  * exp (- spec_radius x y ^ 2 / GAUSSIAN_FALLOFF) <= / 4.
Proof.
  pose proof (spec_radius_sq_dominates x y) as Hr.
  set (r2 := spec_radius x y ^ 2) in *.
  assert (Hpol : Rabs (polarization_term x y) <= r2 / 36).
  { unfold polarization_term, SPACE_EXTENT.
    replace (6.0 ^ 2) with 36 by lra. apply Rabs_le.
    pose proof (pow2_ge_0 x). pose proof (pow2_ge_0 y). lra. }
  unfold GAUSSIAN_FALLOFF.
  replace (- r2 / 18.0) with (- (r2 / 18)) by lra.
  pose proof (damped_growth_bounded (r2 / 18)) as Hd.
  pose proof (exp_pos (- (r2 / 18))) as He.
  pose proof (Rabs_pos (polarization_term x y)) as Hp0.
  set (e := exp (- (r2 / 18))) in *.
  set (p := Rabs (polarization_term x y)) in *.
  assert (p * e <= r2 / 36 * e) by nra.
  lra.
Qed.

Lemma wave_displacement_globally_bounded (x y t : R) :
  Rabs (_wave_displacement_at x y t) <= 0.15.
Proof.
  rewrite wave_displacement_factors.
  rewrite !Rabs_mult.
  pose proof (polarization_envelope_bounded x y) as Hpe.
  rewrite (Rabs_pos_eq (exp _)) by (left; apply exp_pos).
  rewrite (Rabs_pos_eq WAVE_AMPLITUDE) by (unfold WAVE_AMPLITUDE; lra).
  match goal with |- _ * Rabs (sin ?p) * _ * _ <= _ =>
    assert (Hs : Rabs (sin p) <= 1) by apply Rabs_le, SIN_bound;
    pose proof (Rabs_pos (sin p)) as Hs0;
    set (s := Rabs (sin p)) in *
  end.
  pose proof (Rabs_pos (polarization_term x y)) as Hp0.
  pose proof (exp_pos (- spec_radius x y ^ 2 / GAUSSIAN_FALLOFF)) as He.
  set (pe := Rabs (polarization_term x y)
             * exp (- spec_radius x y ^ 2 / GAUSSIAN_FALLOFF)) in *.
  replace (WAVE_AMPLITUDE * s * Rabs (polarization_term x y)
           * exp (- spec_radius x y ^ 2 / GAUSSIAN_FALLOFF))
    with (WAVE_AMPLITUDE * (s * pe)) by (unfold pe; ring).
  assert (Hpe0 : 0 <= pe).
  { unfold pe. apply Rmult_le_pos; [exact Hp0 | now left]. }
  assert (Hspe : s * pe <= 1 * / 4) by (apply Rmult_le_compat; lra).
  unfold WAVE_AMPLITUDE. lra.
Qed.

(** X4.  Everywhere in the plane, not only on the spatial domain, and at
    every time the magnitude of the displacement is at most [0.15], a
    quarter of the amplitude constant: the Gaussian envelope outweighs the
    quadratic growth of the polarization term. *)
Theorem wave_displacement_bounded_everywhere (x y t : R) :
  Rabs (_wave_displacement_at x y t) <= 0.15 /\
  0.15 = WAVE_AMPLITUDE / 4.
Proof.
  split; [apply wave_displacement_globally_bounded |].
  unfold WAVE_AMPLITUDE. lra.
Qed.

Lemma wave_displacement_quadratic_bound (x y t : R) :
  Rabs (_wave_displacement_at x y t) <= (x ^ 2 + y ^ 2) / 60.
Proof.
  rewrite wave_displacement_factors, !Rabs_mult.
  destruct (envelope_bounded (spec_radius x y)) as [He0 He1].
  rewrite (Rabs_pos_eq (exp _)) by (left; apply exp_pos).
  rewrite (Rabs_pos_eq WAVE_AMPLITUDE) by (unfold WAVE_AMPLITUDE; lra).
  assert (Hpol : Rabs (polarization_term x y) <= (x ^ 2 + y ^ 2) / 36).
  { unfold polarization_term, SPACE_EXTENT.
    replace (6.0 ^ 2) with 36 by lra. apply Rabs_le.
    pose proof (pow2_ge_0 x). pose proof (pow2_ge_0 y). lra. }
  pose proof (Rabs_pos (polarization_term x y)) as Hp0.
  match goal with |- _ * Rabs (sin ?p) * _ * _ <= _ =>
    assert (Hs : Rabs (sin p) <= 1) by apply Rabs_le, SIN_bound;
    pose proof (Rabs_pos (sin p)) as Hs0;
    set (s := Rabs (sin p)) in *
  end.
  set (p := Rabs (polarization_term x y)) in *.
  set (e := exp (- spec_radius x y ^ 2 / GAUSSIAN_FALLOFF)) in *.
  assert (Hse : s * e <= 1 * 1) by (apply Rmult_le_compat; lra).
  assert (Hse0 : 0 <= s * e) by (apply Rmult_le_pos; lra).
  assert (Hpse : p * (s * e) <= p * 1) by (apply Rmult_le_compat_l; lra).
  replace (WAVE_AMPLITUDE * s * p * e) with (WAVE_AMPLITUDE * (p * (s * e)))
    by ring.
  unfold WAVE_AMPLITUDE. lra.
Qed.

(** X5.  Near the origin the field vanishes quadratically: at every point
    and time the magnitude of the displacement is at most
    [(x^2 + y^2) / 60]. *)
Theorem wave_displacement_vanishes_quadratically (x y t : R) :
  Rabs (_wave_displacement_at x y t) <= (x ^ 2 + y ^ 2) / 60.
Proof. apply wave_displacement_quadratic_bound. Qed.

(** * Further properties of the array code *)

Lemma broadcast_dim_none (a b : nat) :
  broadcast_dim a b = None <-> a <> b /\ a <> 1%nat /\ b <> 1%nat.
Proof.
  unfold broadcast_dim.
  destruct (Nat.eqb_spec a b), (Nat.eqb_spec a 1), (Nat.eqb_spec b 1);
    split; try discriminate; try tauto; intros (? & ? & ?); contradiction.
Qed.

Lemma wave_deformation_none_iff (x_grid y_grid : ndarray) (t : R) :
  _wave_deformation x_grid y_grid t = None <->
  broadcast_dim (nrows x_grid) (nrows y_grid) = None \/
  broadcast_dim (ncols x_grid) (ncols y_grid) = None.
Proof.
  split; [| apply wave_deformation_shape_error].
  intros Hnone.
  destruct (broadcast_dim (nrows x_grid) (nrows y_grid)) as [r |] eqn:Hr;
    [| now left].
  destruct (broadcast_dim (ncols x_grid) (ncols y_grid)) as [c |] eqn:Hc;
    [| now right].
  destruct (wave_deformation_broadcast x_grid y_grid t r c Hr Hc)
    as (z & Hz & _).
  congruence.
Qed.

(** X6.  The grid function raises (returns [None]) exactly when the shapes
    of the two coordinate arrays cannot be broadcast: on some axis their
    lengths differ and neither is 1.  The time argument plays no part. *)
Theorem wave_deformation_fails_iff_shapes_incompatible
    (x_grid y_grid : ndarray) (t : R) :
  _wave_deformation x_grid y_grid t = None <->
  (nrows x_grid <> nrows y_grid /\
   nrows x_grid <> 1%nat /\ nrows y_grid <> 1%nat) \/
  (ncols x_grid <> ncols y_grid /\
   ncols x_grid <> 1%nat /\ ncols y_grid <> 1%nat).
Proof.
  rewrite wave_deformation_none_iff, !broadcast_dim_none. reflexivity.
Qed.

Lemma wave_deformation_fails_iff_shapes_incompatible_witness :
  _wave_deformation (mk_ndarray 2 3 (fun _ j => INR j))
                    (mk_ndarray 3 2 (fun i _ => INR i)) 0 = None.
Proof.
  apply (proj2 (wave_deformation_fails_iff_shapes_incompatible _ _ 0)).
  left. cbn [nrows]. repeat split; discriminate.
Defined.

Lemma broadcast_dim_one_l (n : nat) : broadcast_dim 1 n = Some n.
Proof.
  unfold broadcast_dim.
  destruct (Nat.eqb_spec 1 n) as [<- | _]; reflexivity.
Qed.

Lemma broadcast_dim_one_r (n : nat) : broadcast_dim n 1 = Some n.
Proof.
  unfold broadcast_dim.
  destruct (Nat.eqb_spec n 1) as [-> | _]; [reflexivity |].
  destruct (Nat.eqb_spec n 1); reflexivity.
Qed.

(** X7.  Broadcasting a row against a column: for a [1 x n] array of
    abscissas and an [m x 1] array of ordinates the grid function returns
    the [m x n] array whose cell [(i, j)] is the displacement at abscissa
    [j] and ordinate [i], which is what it returns on the mesh
    [meshgrid] builds from the same coordinates. *)
Theorem wave_deformation_broadcasts_row_against_column
    (x_row y_col : ndarray) (t : R) :
  nrows x_row = 1%nat -> ncols y_col = 1%nat ->
  exists z_grid,
    _wave_deformation x_row y_col t = Some z_grid /\
    nrows z_grid = nrows y_col /\ ncols z_grid = ncols x_row /\
    forall i j, (i < nrows y_col)%nat -> (j < ncols x_row)%nat ->
      item z_grid i j
      = _wave_displacement_at (item x_row 0 j) (item y_col i 0) t.
Proof.
  intros Hx Hy.
  destruct (wave_deformation_broadcast x_row y_col t
              (nrows y_col) (ncols x_row)) as (z & Hz & Hzr & Hzc & Hcell).
  - rewrite Hx. apply broadcast_dim_one_l.
  - rewrite Hy. apply broadcast_dim_one_r.
  - exists z. repeat split; trivial. intros i j Hi Hj.
    rewrite (Hcell i j Hi Hj), Hx, Hy.
    unfold bidx at 1 4. cbn [Nat.eqb].
    now rewrite !bidx_in_range.
Qed.

Lemma wave_deformation_broadcasts_row_against_column_witness :
  let x_row := mk_ndarray 1 3 (fun _ j => INR j) in
  let y_col := mk_ndarray 2 1 (fun i _ => INR i) in
  exists z_grid,
    _wave_deformation x_row y_col 0.5 = Some z_grid /\
    nrows z_grid = 2%nat /\ ncols z_grid = 3%nat /\
    forall i j, (i < 2)%nat -> (j < 3)%nat ->
      item z_grid i j = _wave_displacement_at (INR j) (INR i) 0.5.
Proof.
  intros x_row y_col.
  exact (wave_deformation_broadcasts_row_against_column x_row y_col 0.5
           eq_refl eq_refl).
Defined.

(** * Further properties of the grid *)












(** * Further properties of the mass trajectory *)



Lemma abs_le_bounds (a b : R) : Rabs a <= b -> - b <= a <= b.
Proof.
  intros H. pose proof (Rle_abs a) as H1. pose proof (Rle_abs (- a)) as H2.
  rewrite Rabs_Ropp in H2. lra.
Qed.

Lemma orbit_coordinate_bounded (c : R) :
  -1 <= c <= 1 -> Rabs (ORBITAL_RADIUS * c) <= ORBITAL_RADIUS.
Proof.
  unfold ORBITAL_RADIUS. intros Hc. apply Rabs_le. lra.
Qed.

(** X13.  The markers of the two masses: the second marker is the mirror
    image of the first in the plane, both are drawn at one and the same
    height, that height is within [0.033] of the vertical offset [0.9], and
    with it the markers lie strictly inside the limits [_setup_axes] puts
    on the three axes. *)
Theorem mass_markers_level_and_inside_axes (t : R) (a : axes) :
  exists x y z : R,
    mass_markers t = Scatter [x; - x] [y; - y] [z; z] /\
    (x, y) = fst (_mass_positions t) /\
    z = _wave_displacement_at x y t + MASS_HEIGHT_OFFSET /\
    MASS_HEIGHT_OFFSET - 0.033 <= z <= MASS_HEIGHT_OFFSET + 0.033 /\
    fst (xlim (_setup_axes a)) < x < snd (xlim (_setup_axes a)) /\
    fst (xlim (_setup_axes a)) < - x < snd (xlim (_setup_axes a)) /\
    fst (ylim (_setup_axes a)) < y < snd (ylim (_setup_axes a)) /\
    fst (ylim (_setup_axes a)) < - y < snd (ylim (_setup_axes a)) /\
    fst (zlim (_setup_axes a)) < z < snd (zlim (_setup_axes a)).
Proof.
  set (angle := 2.0 * PI / ORBITAL_PERIOD * t).
  exists (ORBITAL_RADIUS * cos angle), (ORBITAL_RADIUS * sin angle),
    (_wave_displacement_at (ORBITAL_RADIUS * cos angle)
       (ORBITAL_RADIUS * sin angle) t + MASS_HEIGHT_OFFSET).
  pose proof (wave_displacement_quadratic_bound
                (ORBITAL_RADIUS * cos angle) (ORBITAL_RADIUS * sin angle) t)
    as Hz.
  replace ((ORBITAL_RADIUS * cos angle) ^ 2 + (ORBITAL_RADIUS * sin angle) ^ 2)
    with (ORBITAL_RADIUS ^ 2 * (Rsqr (sin angle) + Rsqr (cos angle)))
    in Hz by (unfold Rsqr; ring).
  rewrite sin2_cos2, Rmult_1_r in Hz.
  apply abs_le_bounds in Hz.
  pose proof (orbit_coordinate_bounded _ (COS_bound angle)) as Hx.
  pose proof (orbit_coordinate_bounded _ (SIN_bound angle)) as Hy.
  apply abs_le_bounds in Hx. apply abs_le_bounds in Hy.
  split.
  { unfold mass_markers, _mass_positions. cbv zeta. cbn [fst snd].
    fold angle. rewrite <- !Ropp_mult_distr_l.
    rewrite (proj2 (proj2 (wave_displacement_mirror_symmetric _ _ t))).
    reflexivity. }
  split; [reflexivity |]. split; [reflexivity |].
  unfold _setup_axes, SPACE_EXTENT, MASS_HEIGHT_OFFSET, ORBITAL_RADIUS in *.
  cbn [fst snd xlim ylim zlim].
  repeat split; lra.
Qed.

(** * Further properties of the frame loop *)








Lemma update_redraws_frame_from_scratch_aux
    (x_grid y_grid : ndarray) (i : nat) (st : render_state) :
  nrows x_grid = nrows y_grid -> ncols x_grid = ncols y_grid ->
  exists z_grid st',
    update x_grid y_grid i st = Some st' /\
    _wave_deformation x_grid y_grid (time_of_frame i) = Some z_grid /\
    artists (ax st') =
      [Surface x_grid y_grid z_grid; mass_markers (time_of_frame i);
       Contour x_grid y_grid z_grid 8 (-1.5)] /\
    zlim (ax st') = (-1.5, 1.5) /\
    forall r c, (r < nrows x_grid)%nat -> (c < ncols x_grid)%nat ->
      -1.5 < item z_grid r c < 1.5.
Proof.
  intros Hr Hc.
  destruct (wave_deformation_cells x_grid y_grid (time_of_frame i) Hr Hc)
    as (z & Hz & Hzr & Hzc & Hcell).
  exists z. unfold update. cbv zeta. rewrite Hz. cbn [bind].
  eexists. repeat (split; [reflexivity |]).
  intros r c Hr' Hc'. rewrite (Hcell r c Hr' Hc').
  pose proof (wave_displacement_globally_bounded
                (item x_grid r c) (item y_grid r c) (time_of_frame i)) as Hb.
  pose proof (abs_le_bounds _ _ Hb). lra.
Qed.




Lemma Forall2_nth_error_l {A B : Type} (P : A -> B -> Prop)
    (l : list A) (l' : list B) :
  Forall2 P l l' ->
  forall k x, nth_error l k = Some x ->
  exists y, nth_error l' k = Some y /\ P x y.
Proof.
  induction 1 as [| x0 y0 l l' Hxy _ IH]; intros k x Hk.
  - destruct k; discriminate.
  - destruct k as [| k]; cbn [nth_error] in *.
    + injection Hk as <-. now exists y0.
    + now apply IH.
Qed.

Lemma nth_error_seq_from_zero (n k : nat) :
  (k < n)%nat -> nth_error (seq 0 n) k = Some k.
Proof.
  intros Hk.
  rewrite (nth_error_nth' _ 0%nat) by now rewrite length_seq.
  now rewrite seq_nth.
Qed.

(** The run of [main]: it returns, and frame [k] of the encoded sequence
    is the axes [update] leaves for index [k], from any state. *)
Lemma main_encodes_update_frames :
  exists d : driver_state,
    main = Some d /\
    forall k, (k < TOTAL_FRAMES)%nat ->
      exists a, nth_error (encoded d) k = Some a /\
        forall st,
          option_map ax (update (fst _build_grid) (snd _build_grid) k st)
          = Some a.
Proof.
  destruct build_grid_shape as (Hxr & Hxc & Hyr & Hyc).
  destruct (save_trace (fst _build_grid) (snd _build_grid)
              (eq_trans Hxr (eq_sym Hyr)) (eq_trans Hxc (eq_sym Hyc))
              (mk_render_state (_setup_axes fresh_axes) None None))
    as (d & Hsave & _ & Hall).
  exists d. split; [exact Hsave |]. intros k Hk.
  exact (Forall2_nth_error_l _ _ _ Hall k k (nth_error_seq_from_zero _ _ Hk)).
Qed.

(** X17.  Every frame [main] encodes is drawn on the [60 x 60] mesh at its
    own time sample: frame [k] holds exactly the surface of the field at
    time [k / 30], the two markers at that time and the contour of the same
    field, under the configured limits, and every height of the surface is
    inside the z limits. *)
Theorem main_encodes_field_of_each_time_sample :
  exists d : driver_state,
    main = Some d /\
    forall k, (k < TOTAL_FRAMES)%nat ->
      exists a z_grid,
        nth_error (encoded d) k = Some a /\
        _wave_deformation (fst _build_grid) (snd _build_grid)
          (time_of_frame k) = Some z_grid /\
        artists a =
          [Surface (fst _build_grid) (snd _build_grid) z_grid;
           mass_markers (time_of_frame k);
           Contour (fst _build_grid) (snd _build_grid) z_grid 8 (-1.5)] /\
        zlim a = (-1.5, 1.5) /\
        forall r c, (r < GRID_POINTS)%nat -> (c < GRID_POINTS)%nat ->
          field_at_cell (time_of_frame k) r c = Some (item z_grid r c) /\
          -1.5 < item z_grid r c < 1.5.
Proof.
  destruct main_encodes_update_frames as (d & Hmain & Hframes).
  exists d. split; [exact Hmain |]. intros k Hk.
  destruct (Hframes k Hk) as (a & Hnth & Hupd).
  destruct build_grid_shape as (Hxr & Hxc & Hyr & Hyc).
  destruct (update_redraws_frame_from_scratch_aux
              (fst _build_grid) (snd _build_grid) k
              (mk_render_state fresh_axes None None)
              (eq_trans Hxr (eq_sym Hyr)) (eq_trans Hxc (eq_sym Hyc)))
    as (z & st' & Hu & Hz & Ha & Hzl & Hcell).
  specialize (Hupd (mk_render_state fresh_axes None None)).
  rewrite Hu in Hupd. cbn [option_map] in Hupd. injection Hupd as <-.
  exists (ax st'), z. repeat split; trivial.
  - unfold field_at_cell. now rewrite Hz.
  - apply Hcell; [rewrite Hxr | rewrite Hxc]; assumption.
  - apply Hcell; [rewrite Hxr | rewrite Hxc]; assumption.
Qed.

Lemma main_encodes_field_of_each_time_sample_witness :
  exists d : driver_state,
    main = Some d /\
    exists a z_grid,
      nth_error (encoded d) 200 = Some a /\
      _wave_deformation (fst _build_grid) (snd _build_grid)
        (time_of_frame 200) = Some z_grid /\
      length (artists a) = 3%nat /\
      -1.5 < item z_grid 10 20 < 1.5.
Proof.
  destruct main_encodes_field_of_each_time_sample as (d & Hmain & H).
  exists d. split; [exact Hmain |].
  destruct (H 200%nat ltac:(unfold TOTAL_FRAMES, FPS, DURATION; lia))
    as (a & z & Hnth & Hz & Ha & _ & Hcell).
  exists a, z. rewrite Ha. repeat split; trivial;
    apply (Hcell 10%nat 20%nat); unfold GRID_POINTS; lia.
Defined.




